(** * envalid-unused: the unused-variable detector [warnUnused]

    A shallow embedding of [src/index.ts] and the properties of its
    filtering rule, its defaults and its single diagnostic message.

    Conventions of the embedding.
    - A JavaScript string is a [string]; [===] on strings, [Set.has] on a
      set of strings and [startsWith] compare them unit by unit.
    - An object is the list of its own enumerable string-keyed properties
      in enumeration order ([Object.keys] order); the keys of an object are
      pairwise distinct, which is stated as [NoDup] where a property needs it.
    - A [Set] of strings is a [gset string].
    - [process.env], which the source reads as an ambient global, is an
      explicit argument.
    - The [warn] callback belongs to the caller: a call of it is recorded
      as an event [(function, message)], and it ends as the function says,
      by returning or by throwing; [console.warn] returns. What the call
      does to the caller's own state is not modelled. *)

From Stdlib Require Import String Ascii List Bool Arith Lia.
From Stdlib Require Import DecimalString DecimalFacts DecimalNat.
From stdpp Require Import base gmap strings list.

Local Open Scope string_scope.
Local Open Scope list_scope.

(** ** JavaScript values used by the module *)

Module Js.

(** An object with values of type [V]: its own enumerable properties. *)
Definition Obj (V : Type) : Type := list (string * V).

(** [Object.keys(o)] *)
Definition Object_keys {V : Type} (o : Obj V) : list string := List.map fst o.

(** [key.startsWith(prefix)] *)
Definition startsWith (key prefix : string) : bool := String.prefix prefix key.

(** [s.endsWith(suffix)]: with [start = s.length - suffix.length], false
    when [start < 0], else whether the [suffix.length] units from [start]
    are [suffix]. *)
Definition endsWith (s suffix : string) : bool :=
  if Nat.ltb (String.length s) (String.length suffix) then false
  else String.eqb
         (String.substring (String.length s - String.length suffix)
                           (String.length suffix) s)
         suffix.

(** [arr.some(f)] *)
Definition some {A : Type} (f : A -> bool) (arr : list A) : bool := List.existsb f arr.

(** [arr.join(sep)] on an array of strings *)
Definition join (sep : string) (arr : list string) : string := String.concat sep arr.

(** Number-to-string conversion of an array length: its decimal digits. *)
Definition Number_toString (n : nat) : string :=
  NilZero.string_of_uint (Nat.to_uint n).

(** Errors the runtime raises. *)
Inductive Error : Type :=
| TypeError (msg : string)
| GenericError (msg : string).

(** How an evaluation ends: normally with a value, or with a thrown error. *)
Inductive Completion (A : Type) : Type :=
| Normal (a : A)
| Throw (e : Error).
Arguments Normal {A} a.
Arguments Throw {A} e.

End Js.

Import Js.

(** ** The options and the callbacks *)

(** A warning function: [console.warn], or a function of the caller,
    identified by a number, with how a call of it on a message ends: it
    returns, or it throws. *)
Inductive WarnFn : Type :=
| console_warn
| js_function (id : nat) (body : string -> Completion unit).

(** A function of the caller that returns on every message, as [() => {}]
    or a mock. *)
Definition callback (id : nat) : WarnFn := js_function id (fun _ => Normal tt).

(** A function of the caller that throws [e] on every message. *)
Definition thrower (id : nat) (e : Error) : WarnFn :=
  js_function id (fun _ => Throw e).

(** How the call [fn(message)] ends. *)
Definition outcome (fn : WarnFn) (message : string) : Completion unit :=
  match fn with
  | console_warn => Normal tt
  | js_function _ body => body message
  end.

(** The function returns on every message. *)
Definition returns_normally (fn : WarnFn) : Prop :=
  forall message, outcome fn message = Normal tt.

(** [interface WarnUnusedOptions]; [None] is an absent (or undefined) field. *)
Record WarnUnusedOptions : Type := mkOptions {
  warn : option WarnFn;
  ignorePrefixes : option (list string);
  ignoreVariables : option (list string);
}.

(** The object literal [{}]. *)
Definition empty_options : WarnUnusedOptions :=
  {| warn := None; ignorePrefixes := None; ignoreVariables := None |}.

(** Options in which both ignore lists are present and empty. *)
Definition empty_lists_options : WarnUnusedOptions :=
  {| warn := None; ignorePrefixes := Some []; ignoreVariables := Some [] |}.

Definition DEFAULT_IGNORE_PREFIXES : list string :=
  [ "npm_"; "NODE_"; "LC_"; "SSH_"; "XDG_"; "DBUS_" ].

Definition DEFAULT_IGNORE_VARIABLES : list string :=
  [ "SHELL"; "TERM"; "USER"; "HOME"; "PATH"; "PWD"; "LANG"; "DISPLAY";
    "COLORTERM"; "EDITOR"; "VISUAL"; "PAGER"; "LESS"; "HOSTNAME"; "LOGNAME";
    "MAIL"; "OLDPWD"; "SHLVL"; "_" ].

(** ** Effects: recorded calls of the warning function, and thrown errors *)

(** One call [fn(message)]. *)
Definition WarnCall : Type := (WarnFn * string)%type.

(** A computation: the calls it made, in order, and how it ended. *)
Definition M (A : Type) : Type := (list WarnCall * Completion A)%type.

Definition throw {A : Type} (e : Error) : M A := ([], Throw e).

#[global] Instance M_ret : MRet M := fun A (a : A) => ([], Normal a).

#[global] Instance M_bind : MBind M := fun A B (k : A -> M B) (m : M A) =>
  match m with
  | (t, Normal a) => let '(t', r) := k a in (t ++ t', r)
  | (t, Throw e) => (t, Throw e)
  end.

(** [fn(message)]: the call is made, and ends as [fn] does on [message]. *)
Definition call (fn : WarnFn) (message : string) : M unit :=
  ([(fn, message)], outcome fn message).

(** The calls a computation made, and its completion. *)
Definition calls {A : Type} (m : M A) : list WarnCall := fst m.
Definition completion {A : Type} (m : M A) : Completion A := snd m.

(** ** [warnUnused] *)

(** A parameter or a destructured field with a default: [x = d]. *)
Definition or_default {A : Type} (x : option A) (d : A) : A :=
  match x with
  | Some a => a
  | None => d
  end.

(** The three fields [warnUnused] reads from its options. *)
Record Settings : Type := mkSettings {
  warn_fn : WarnFn;
  prefixes : list string;
  variables : list string;
}.

(** [const { warn = console.warn, ignorePrefixes = DEFAULT_IGNORE_PREFIXES,
            ignoreVariables = DEFAULT_IGNORE_VARIABLES } = options;]
    Destructuring [undefined] throws a TypeError. *)
Definition destructure (options : option WarnUnusedOptions) : M Settings :=
  match options with
  | None => throw (TypeError "Cannot destructure 'options' as it is undefined.")
  | Some o =>
      mret {| warn_fn := or_default (warn o) console_warn;
             prefixes := or_default (ignorePrefixes o) DEFAULT_IGNORE_PREFIXES;
             variables := or_default (ignoreVariables o) DEFAULT_IGNORE_VARIABLES |}
  end.

(** The callback given to [processEnvKeys.filter]. *)
Definition is_unused (definedKeys ignoreVariablesSet : gset string)
    (ignorePrefixes : list string) (key : string) : bool :=
  if bool_decide (key ∈ definedKeys) then false
  else if bool_decide (key ∈ ignoreVariablesSet) then false
  else if some (fun prefix => startsWith key prefix) ignorePrefixes then false
  else true.

(** The text handed to [warn]. *)
Definition warning_message (unusedKeys : list string) : string :=
  (("[envalid-unused] Found " +:+ Number_toString (length unusedKeys))
     +:+ " unused environment variable(s): ")
    +:+ join ", " unusedKeys.

Definition warnUnused {V : Type} (process_env : Obj string)
    (cleanedEnv : Obj V) (options : option WarnUnusedOptions) : M (list string) :=
  let options := or_default options empty_options in
  s ← destructure (Some options);
  let definedKeys : gset string := list_to_set (Object_keys cleanedEnv) in
  let processEnvKeys := Object_keys process_env in
  let ignoreVariablesSet : gset string := list_to_set (variables s) in
  let unusedKeys :=
    List.filter (is_unused definedKeys ignoreVariablesSet (prefixes s)) processEnvKeys in
  (if Nat.ltb 0 (length unusedKeys)
   then call (warn_fn s) (warning_message unusedKeys)
   else mret tt);;
  mret unusedKeys.

(** ** The detector with its checks in a chosen order *)

(** The three exclusion checks of the filter callback. *)
Inductive Check : Type :=
| check_definedKeys
| check_ignoreVariables
| check_ignorePrefixes.

(** The order in which [warnUnused] makes them. *)
Definition source_order : list Check :=
  [check_definedKeys; check_ignoreVariables; check_ignorePrefixes].

(** Whether one check excludes [key]. *)
Definition excludes (definedKeys ignoreVariablesSet : gset string)
    (ignorePrefixes : list string) (key : string) (c : Check) : bool :=
  match c with
  | check_definedKeys => bool_decide (key ∈ definedKeys)
  | check_ignoreVariables => bool_decide (key ∈ ignoreVariablesSet)
  | check_ignorePrefixes => some (fun prefix => startsWith key prefix) ignorePrefixes
  end.

(** The filter callback making the checks of [order] one after the other,
    [if (check) return false;] for each, then [return true]. *)
Fixpoint is_unused_in_order (order : list Check)
    (definedKeys ignoreVariablesSet : gset string)
    (ignorePrefixes : list string) (key : string) : bool :=
  match order with
  | [] => true
  | c :: rest =>
      if excludes definedKeys ignoreVariablesSet ignorePrefixes key c then false
      else is_unused_in_order rest definedKeys ignoreVariablesSet ignorePrefixes key
  end.

(** [warnUnused] with that callback in place of its own. *)
Definition warnUnused_in_order {V : Type} (order : list Check)
    (process_env : Obj string) (cleanedEnv : Obj V)
    (options : option WarnUnusedOptions) : M (list string) :=
  let options := or_default options empty_options in
  s ← destructure (Some options);
  let definedKeys : gset string := list_to_set (Object_keys cleanedEnv) in
  let processEnvKeys := Object_keys process_env in
  let ignoreVariablesSet : gset string := list_to_set (variables s) in
  let unusedKeys :=
    List.filter
      (is_unused_in_order order definedKeys ignoreVariablesSet (prefixes s))
      processEnvKeys in
  (if Nat.ltb 0 (length unusedKeys)
   then call (warn_fn s) (warning_message unusedKeys)
   else mret tt);;
  mret unusedKeys.

(** ** Reading [warnUnused] as a value *)

(** The settings in force: what the destructuring binds, for an options
    argument that may be absent. *)
Definition settings_of (options : option WarnUnusedOptions) : Settings :=
  let o := or_default options empty_options in
  {| warn_fn := or_default (warn o) console_warn;
     prefixes := or_default (ignorePrefixes o) DEFAULT_IGNORE_PREFIXES;
     variables := or_default (ignoreVariables o) DEFAULT_IGNORE_VARIABLES |}.

(** The array [unusedKeys] for given settings. *)
Definition unused_keys {V : Type} (process_env : Obj string)
    (cleanedEnv : Obj V) (s : Settings) : list string :=
  List.filter
    (is_unused (list_to_set (Object_keys cleanedEnv)) (list_to_set (variables s))
               (prefixes s))
    (Object_keys process_env).

(** The calls [warnUnused] makes once [unusedKeys] is known. *)
Definition report (fn : WarnFn) (unusedKeys : list string) : list WarnCall :=
  match unusedKeys with
  | [] => []
  | _ :: _ => [(fn, warning_message unusedKeys)]
  end.

(** How [warnUnused] ends once [unusedKeys] is known: with no unused key
    it returns; otherwise it returns if the call of the warning function
    returns, and throws what that call throws. *)
Definition ending (fn : WarnFn) (unusedKeys : list string) : Completion (list string) :=
  match unusedKeys with
  | [] => Normal []
  | _ :: _ =>
      match outcome fn (warning_message unusedKeys) with
      | Normal _ => Normal unusedKeys
      | Throw e => Throw e
      end
  end.

(** The warning function in force returns on every message. *)
Definition warn_returns (options : option WarnUnusedOptions) : Prop :=
  returns_normally (warn_fn (settings_of options)).

Section Helpers.

Context {V : Type}.
Implicit Types (process_env : Obj string) (cleanedEnv : Obj V).
Implicit Types (options : option WarnUnusedOptions) (key : string).

Lemma warnUnused_eq process_env cleanedEnv options :
  warnUnused process_env cleanedEnv options =
    (report (warn_fn (settings_of options))
            (unused_keys process_env cleanedEnv (settings_of options)),
     ending (warn_fn (settings_of options))
            (unused_keys process_env cleanedEnv (settings_of options))).
Proof.
  unfold warnUnused, unused_keys, settings_of, destructure.
  cbn [mbind M_bind mret M_ret warn_fn prefixes variables].
  match goal with
  | |- context [List.filter ?f ?l] => destruct (List.filter f l) as [|k ks]
  end; [reflexivity|].
  unfold ending, report, call. cbn [Nat.ltb Nat.leb length].
  by destruct (outcome _ _).
Qed.

Lemma ending_returns (fn : WarnFn) (unusedKeys : list string) :
  returns_normally fn → ending fn unusedKeys = Normal unusedKeys.
Proof. intros Hret. destruct unusedKeys; [done|]. unfold ending. by rewrite Hret. Qed.

Lemma ending_Normal (fn : WarnFn) (unusedKeys result : list string) :
  ending fn unusedKeys = Normal result → result = unusedKeys.
Proof.
  destruct unusedKeys; simpl; [congruence|].
  destruct (outcome _ _); congruence.
Qed.

(** What a run that returns, returns. *)
Lemma completion_warnUnused_Normal process_env cleanedEnv options result :
  completion (warnUnused process_env cleanedEnv options) = Normal result →
  result = unused_keys process_env cleanedEnv (settings_of options).
Proof. rewrite warnUnused_eq. apply ending_Normal. Qed.

(** A run whose warning function returns, returns. *)
Lemma completion_warnUnused process_env cleanedEnv options :
  warn_returns options →
  completion (warnUnused process_env cleanedEnv options) =
    Normal (unused_keys process_env cleanedEnv (settings_of options)).
Proof. intros Hret. rewrite warnUnused_eq. by apply ending_returns. Qed.

Lemma calls_warnUnused process_env cleanedEnv options :
  calls (warnUnused process_env cleanedEnv options) =
    report (warn_fn (settings_of options))
           (unused_keys process_env cleanedEnv (settings_of options)).
Proof. by rewrite warnUnused_eq. Qed.

End Helpers.

(** The lists in force when the options give them. *)
Lemma prefixes_settings_of (fn : option WarnFn) (ps : list string)
    (vs : option (list string)) :
  prefixes (settings_of (Some (mkOptions fn (Some ps) vs))) = ps.
Proof. reflexivity. Qed.

Lemma variables_settings_of (fn : option WarnFn) (ps : option (list string))
    (vs : list string) :
  variables (settings_of (Some (mkOptions fn ps (Some vs)))) = vs.
Proof. reflexivity. Qed.

(** ** Scenarios of the test suite *)

Example all_defined :
  warnUnused [("FOO", "bar"); ("BAZ", "qux")] [("FOO", "bar"); ("BAZ", "qux")]
    (Some (mkOptions (Some (callback 0)) None None))
  = ([], Normal []).
Proof. by vm_compute. Qed.

Example two_unused :
  warnUnused [("FOO", "bar"); ("UNUSED1", "a"); ("UNUSED2", "b")] [("FOO", "bar")]
    (Some (mkOptions (Some (callback 0)) (Some []) (Some [])))
  = ([(callback 0,
       "[envalid-unused] Found 2 unused environment variable(s): UNUSED1, UNUSED2")],
     Normal ["UNUSED1"; "UNUSED2"]).
Proof. by vm_compute. Qed.

Example three_unused_on_the_console :
  warnUnused [("UNUSED1", "a"); ("UNUSED2", "b"); ("UNUSED3", "c")] ([] : Obj string)
    (Some (mkOptions None (Some []) (Some [])))
  = ([(console_warn,
       "[envalid-unused] Found 3 unused environment variable(s): UNUSED1, UNUSED2, UNUSED3")],
     Normal ["UNUSED1"; "UNUSED2"; "UNUSED3"]).
Proof. by vm_compute. Qed.

Example all_defaults :
  completion
    (warnUnused [("DEFINED", "value"); ("SHELL", "/bin/bash");
                 ("npm_config_test", "x"); ("CUSTOM_UNUSED", "y")]
       [("DEFINED", "value")] (Some (mkOptions (Some (callback 0)) None None)))
  = Normal ["CUSTOM_UNUSED"].
Proof. by vm_compute. Qed.

Example a_prefix_ignored :
  completion
    (warnUnused [("FOO", "bar"); ("MY_PREFIX_VAR", "value"); ("ANOTHER", "x")]
       [("FOO", "bar")] (Some (mkOptions (Some (callback 0)) (Some ["MY_PREFIX_"]) (Some []))))
  = Normal ["ANOTHER"].
Proof. by vm_compute. Qed.

(** ** Strings *)

Lemma append_String (c : ascii) (s t : string) :
  String c s +:+ t = String c (s +:+ t).
Proof. reflexivity. Qed.

Lemma append_assoc (s t u : string) : (s +:+ t) +:+ u = s +:+ (t +:+ u).
Proof. induction s as [|c s IH]; [done|]. by rewrite !append_String, IH. Qed.

Lemma startsWith_spec (key prefix : string) :
  startsWith key prefix = true ↔ ∃ rest, key = prefix +:+ rest.
Proof.
  unfold startsWith. revert key.
  induction prefix as [|c p IH]; intros key.
  - split; [intros _; by exists key | by destruct key].
  - destruct key as [|d k]; simpl.
    + split; [done | intros [rest Hr]; discriminate].
    + setoid_rewrite append_String.
      destruct (Ascii.ascii_dec c d) as [->|Hne].
      * rewrite IH. split; intros [rest Hr]; exists rest; congruence.
      * split; [done | intros [rest Hr]; congruence].
Qed.

Lemma startsWith_empty (key : string) : startsWith key "" = true.
Proof. by destruct key. Qed.

Lemma length_append (s t : string) :
  String.length (s +:+ t) = String.length s + String.length t.
Proof. induction s as [|c s IH]; [done|]. rewrite append_String. simpl. by rewrite IH. Qed.

Lemma substring_whole (s : string) : String.substring 0 (String.length s) s = s.
Proof. induction s as [|c s IH]; [done|]. simpl. by rewrite IH. Qed.

Lemma substring_after (pre t : string) (m : nat) :
  String.substring (String.length pre) m (pre +:+ t) = String.substring 0 m t.
Proof. induction pre as [|c pre IH]; [done|]. rewrite append_String. simpl. apply IH. Qed.

Lemma substring_split (s : string) (a : nat) :
  (a ≤ String.length s)%nat →
  s = String.substring 0 a s +:+ String.substring a (String.length s - a) s.
Proof.
  revert a. induction s as [|c s IH]; intros [|a] Ha; simpl in *; try lia.
  - done.
  - by rewrite substring_whole.
  - rewrite append_String. f_equal. apply IH. lia.
Qed.

(** [s.endsWith(suffix)] holds exactly when [s] is some string followed by
    [suffix]. *)
Lemma endsWith_spec (s suffix : string) :
  endsWith s suffix = true ↔ ∃ stem, s = stem +:+ suffix.
Proof.
  unfold endsWith. split.
  - destruct (Nat.ltb_spec (String.length s) (String.length suffix)) as [Hlt|Hle];
      [done|].
    intros Heq. apply String.eqb_eq in Heq.
    exists (String.substring 0 (String.length s - String.length suffix) s).
    pose proof (substring_split s (String.length s - String.length suffix)) as Hs.
    replace (String.length s - (String.length s - String.length suffix))
      with (String.length suffix) in Hs by lia.
    rewrite Heq in Hs. apply Hs. lia.
  - intros [stem ->]. rewrite length_append.
    destruct (Nat.ltb_spec (String.length stem + String.length suffix)
                (String.length suffix)) as [Hlt|Hle]; [lia|].
    replace (String.length stem + String.length suffix - String.length suffix)
      with (String.length stem) by lia.
    rewrite substring_after, substring_whole. apply String.eqb_refl.
Qed.

(** ** The filter callback *)

Lemma some_true_iff {A : Type} (f : A → bool) (arr : list A) :
  some f arr = true ↔ ∃ x, x ∈ arr ∧ f x = true.
Proof.
  unfold some. rewrite existsb_exists.
  split; intros (x & Hx & Hf); exists x; by rewrite ?list_elem_of_In in *.
Qed.

Lemma is_unused_true (definedKeys ignoreVariablesSet : gset string)
    (ignorePrefixes : list string) (key : string) :
  is_unused definedKeys ignoreVariablesSet ignorePrefixes key = true ↔
    (key ∉ definedKeys) ∧ (key ∉ ignoreVariablesSet) ∧
    ¬ (∃ prefix, prefix ∈ ignorePrefixes ∧ startsWith key prefix = true).
Proof.
  unfold is_unused. rewrite <- some_true_iff.
  repeat case_bool_decide; destruct (some _ _); intuition congruence.
Qed.

Lemma filter_sublist {A : Type} (f : A → bool) (l : list A) :
  List.filter f l `sublist_of` l.
Proof.
  induction l as [|x l IH]; simpl; [constructor|].
  destruct (f x); by constructor.
Qed.

Lemma filter_elem_of {A : Type} (f : A → bool) (l : list A) (x : A) :
  x ∈ List.filter f l ↔ x ∈ l ∧ f x = true.
Proof. rewrite !list_elem_of_In. apply filter_In. Qed.

(** ** The unused-key list *)

(** C1. For every environment snapshot, defined-key object and policy,
    and a warning function that returns, [warnUnused] returns normally, and
    the list it returns holds exactly
    the keys of the snapshot that are no key of the defined-key object, no
    element of [ignoreVariables], and have no element of [ignorePrefixes] as
    a prefix; the list keeps the snapshot's key order (it is a subsequence
    of it) and repeats no key when the snapshot's keys are distinct. *)
Theorem warnUnused_exactly_unused {V : Type} (process_env : Obj string)
    (cleanedEnv : Obj V) (fn : option WarnFn)
    (ignorePrefixes ignoreVariables : list string) :
  returns_normally (or_default fn console_warn) →
  ∃ result,
    completion (warnUnused process_env cleanedEnv
                  (Some (mkOptions fn (Some ignorePrefixes) (Some ignoreVariables))))
      = Normal result
    ∧ (∀ key, key ∈ result ↔
         key ∈ Object_keys process_env
         ∧ (key ∉ Object_keys cleanedEnv)
         ∧ (key ∉ ignoreVariables)
         ∧ ¬ (∃ prefix rest, prefix ∈ ignorePrefixes ∧ key = prefix +:+ rest))
    ∧ result `sublist_of` Object_keys process_env
    ∧ (NoDup (Object_keys process_env) → NoDup result).
Proof.
  intros Hret. eexists. split; [by apply completion_warnUnused|].
  unfold unused_keys. rewrite prefixes_settings_of, variables_settings_of.
  split; [|split].
  - intros key. rewrite filter_elem_of, is_unused_true, !elem_of_list_to_set.
    split.
    + intros (Hin & Hd & Hv & Hp). repeat split; try done.
      intros (prefix & rest & Hpin & ->). apply Hp. exists prefix.
      split; [done|]. apply startsWith_spec. by exists rest.
    + intros (Hin & Hd & Hv & Hp). repeat split; try done.
      intros (prefix & Hpin & Hs). apply startsWith_spec in Hs as [rest ->].
      apply Hp. by exists prefix, rest.
  - apply filter_sublist.
  - intros Hnd. eapply sublist_NoDup; [exact Hnd | apply filter_sublist].
Qed.

Lemma warnUnused_exactly_unused_example :
  returns_normally (callback 0)
  ∧ completion
      (warnUnused [("FOO", "bar"); ("npm_x", "1"); ("HOME", "/root"); ("UNUSED", "u")]
         [("FOO", 1)]
         (Some (mkOptions (Some (callback 0)) (Some ["npm_"]) (Some ["HOME"]))))
    = Normal ["UNUSED"]
  ∧ ("UNUSED" ∉ ["FOO"]) ∧ ("UNUSED" ∉ ["HOME"]).
Proof.
  assert (Hret : returns_normally (callback 0)) by (intros message; reflexivity).
  split; [exact Hret|].
  destruct (warnUnused_exactly_unused
              [("FOO", "bar"); ("npm_x", "1"); ("HOME", "/root"); ("UNUSED", "u")]
              [("FOO", 1)] (Some (callback 0)) ["npm_"] ["HOME"] Hret)
    as (result & Hrun & Hmem & _).
  assert (Hres : result = ["UNUSED"]).
  { apply completion_warnUnused_Normal in Hrun. rewrite Hrun. by vm_compute. }
  subst result. split; [exact Hrun|].
  destruct (proj1 (Hmem "UNUSED")) as (_ & Hd & Hv & _); [by left|].
  by split.
Defined.

(** ** The diagnostic *)

(** The count in the message is written in decimal: read back as a decimal
    numeral it is the number it was made from. *)
Lemma Number_toString_decimal (n : nat) :
  ∃ d, NilZero.uint_of_string (Number_toString n) = Some d ∧ Nat.of_uint d = n.
Proof.
  exists (Nat.to_uint n). split; [|apply DecimalNat.Unsigned.of_to].
  unfold Number_toString. apply NilZero.usu.
  rewrite <- (DecimalNat.Unsigned.of_to n) at 1.
  rewrite DecimalNat.Unsigned.to_of. apply DecimalFacts.unorm_nonnil.
Qed.

(** C2, as stated, fails when the warning function throws: with
    [process.env = { FOO: "bar", UNUSED: "value" }], [cleanedEnv = { FOO }],
    empty ignore lists and a [warn] that throws, the one call is made with
    the message, and [warnUnused] returns no list: it throws. *)
Lemma throwing_warn_returns_no_list :
  warnUnused [("FOO", "bar"); ("UNUSED", "value")] [("FOO", "bar")]
    (Some (mkOptions (Some (thrower 0 (GenericError "boom"))) (Some []) (Some [])))
  = ([(thrower 0 (GenericError "boom"),
       "[envalid-unused] Found 1 unused environment variable(s): UNUSED")],
     Throw (GenericError "boom")).
Proof. by vm_compute. Qed.

(** C2, amended. For every input, with [result] the unused-key list,
    [warnUnused] calls the warning function exactly once when [result] is
    non-empty and never when it is empty; the one call has the message
    [[envalid-unused] Found <N> unused environment variable(s): <names>],
    with <N> the decimal length of [result] and <names> its elements joined
    by [", "] in order. With an empty [result] the empty list is returned.
    With a non-empty one, [result] is returned if that call returns, and if
    the call throws, [warnUnused] throws the same error. *)
Theorem warn_once_iff_unused {V : Type} (process_env : Obj string)
    (cleanedEnv : Obj V) (options : option WarnUnusedOptions) :
  let run := warnUnused process_env cleanedEnv options in
  let fn := or_default (options ≫= warn) console_warn in
  ∃ result message,
    result = unused_keys process_env cleanedEnv (settings_of options)
    ∧ message = "[envalid-unused] Found " +:+ Number_toString (length result)
                  +:+ " unused environment variable(s): "
                  +:+ String.concat ", " result
    ∧ (length (calls run) = 1 ↔ result ≠ [])
    ∧ (result ≠ [] → calls run = [(fn, message)])
    ∧ (result = [] → calls run = [] ∧ completion run = Normal [])
    ∧ (result ≠ [] → outcome fn message = Normal tt →
         completion run = Normal result)
    ∧ (∀ e, result ≠ [] → outcome fn message = Throw e →
         completion run = Throw e)
    ∧ (returns_normally fn → completion run = Normal result).
Proof.
  intros run fn. subst run. eexists _, _.
  split; [reflexivity|]. split; [reflexivity|].
  rewrite warnUnused_eq. unfold calls, completion. cbn [fst snd].
  assert (Hfn : warn_fn (settings_of options) = fn) by by destruct options.
  rewrite Hfn.
  assert (Hmsg : ∀ keys, warning_message keys
                 = "[envalid-unused] Found " +:+ Number_toString (length keys)
                     +:+ " unused environment variable(s): "
                     +:+ String.concat ", " keys).
  { intros keys. unfold warning_message, join. by rewrite !append_assoc. }
  split; [|split; [|split; [|split; [|split]]]].
  - by destruct (unused_keys _ _ _).
  - destruct (unused_keys _ _ _) as [|k ks]; [done|]. intros _. simpl.
    by rewrite Hmsg.
  - by intros ->.
  - destruct (unused_keys _ _ _) as [|k ks]; [done|]. intros _ Hout.
    unfold ending. by rewrite Hmsg, Hout.
  - intros e. destruct (unused_keys _ _ _) as [|k ks]; [done|]. intros _ Hout.
    unfold ending. by rewrite Hmsg, Hout.
  - apply ending_returns.
Qed.

(** ** Absent options *)

(** C3, as stated, fails on two counts. Absent ignore lists are not empty
    lists: with [process.env = { SHELL: "/bin/bash" }], an empty [cleanedEnv]
    and no options, nothing is reported, while with both lists empty [SHELL]
    is. And absent fields do not keep the function from failing: with
    [process.env = { UNUSED: "value" }], both lists absent and a [warn] that
    throws, [warnUnused] throws. *)
Lemma absent_lists_are_not_empty_lists :
  warnUnused [("SHELL", "/bin/bash")] ([] : Obj string) None = ([], Normal [])
  ∧ warnUnused [("SHELL", "/bin/bash")] ([] : Obj string) (Some empty_lists_options)
    = ([(console_warn,
         "[envalid-unused] Found 1 unused environment variable(s): SHELL")],
       Normal ["SHELL"])
  ∧ ¬ (∀ (process_env : Obj string) (cleanedEnv : Obj string),
         warnUnused process_env cleanedEnv None
         = warnUnused process_env cleanedEnv (Some empty_lists_options))
  ∧ warnUnused [("UNUSED", "value")] ([] : Obj string)
      (Some (mkOptions (Some (thrower 0 (GenericError "boom"))) None None))
    = ([(thrower 0 (GenericError "boom"),
         "[envalid-unused] Found 1 unused environment variable(s): UNUSED")],
       Throw (GenericError "boom")).
Proof.
  split; [by vm_compute|]. split; [by vm_compute|]. split; [|by vm_compute].
  intros H. specialize (H [("SHELL", "/bin/bash")] []).
  vm_compute in H. discriminate H.
Qed.

(** C3, amended. [warnUnused] returns normally for every options argument,
    absent or with absent fields, whose warning function returns, as the
    [console.warn] of an absent [warn] does; an absent options argument is
    the empty object [{}]; an absent [warn] is [console.warn], an absent
    [ignorePrefixes] is [DEFAULT_IGNORE_PREFIXES] and an absent
    [ignoreVariables] is [DEFAULT_IGNORE_VARIABLES], neither of which is
    empty. *)
Theorem absent_options_take_defaults {V : Type} (process_env : Obj string)
    (cleanedEnv : Obj V) :
  (∀ options, warn_returns options →
     ∃ trace result,
       warnUnused process_env cleanedEnv options = (trace, Normal result))
  ∧ (∀ options, options ≫= warn = None → warn_returns options)
  ∧ warnUnused process_env cleanedEnv None
    = warnUnused process_env cleanedEnv (Some empty_options)
  ∧ (∀ fn ps vs,
      warnUnused process_env cleanedEnv (Some (mkOptions fn ps vs))
      = warnUnused process_env cleanedEnv
          (Some (mkOptions (Some (or_default fn console_warn))
                           (Some (or_default ps DEFAULT_IGNORE_PREFIXES))
                           (Some (or_default vs DEFAULT_IGNORE_VARIABLES)))))
  ∧ DEFAULT_IGNORE_PREFIXES ≠ [] ∧ DEFAULT_IGNORE_VARIABLES ≠ [].
Proof.
  split; [|split; [|split; [|split]]].
  - intros options Hret. rewrite warnUnused_eq, (ending_returns _ _ Hret).
    by eexists _, _.
  - intros [[[fn|] ps vs]|]; [discriminate| |]; intros _ message; reflexivity.
  - reflexivity.
  - intros fn ps vs. by rewrite !warnUnused_eq.
  - split; discriminate.
Qed.



(** ** The order of the checks *)

Lemma is_unused_in_order_true (order : list Check)
    (definedKeys ignoreVariablesSet : gset string)
    (ignorePrefixes : list string) (key : string) :
  is_unused_in_order order definedKeys ignoreVariablesSet ignorePrefixes key = true ↔
    ∀ c, c ∈ order →
      excludes definedKeys ignoreVariablesSet ignorePrefixes key c = false.
Proof.
  induction order as [|c rest IH]; simpl.
  - split; [intros _ c Hc; inversion Hc | done].
  - destruct (excludes _ _ _ key c) eqn:Hc.
    + split; [done|]. intros H. rewrite (H c) in Hc; [done | by left].
    + rewrite IH. split.
      * intros H c' Hc'. apply elem_of_cons in Hc' as [->|Hin]; auto.
      * intros H c' Hc'. apply H. by right.
Qed.

Lemma is_unused_in_order_perm (order order' : list Check)
    (definedKeys ignoreVariablesSet : gset string)
    (ignorePrefixes : list string) (key : string) :
  order ≡ₚ order' →
  is_unused_in_order order definedKeys ignoreVariablesSet ignorePrefixes key
  = is_unused_in_order order' definedKeys ignoreVariablesSet ignorePrefixes key.
Proof.
  intros Hp. apply eq_true_iff_eq. rewrite !is_unused_in_order_true.
  by setoid_rewrite Hp.
Qed.

Lemma is_unused_source_order (definedKeys ignoreVariablesSet : gset string)
    (ignorePrefixes : list string) (key : string) :
  is_unused_in_order source_order definedKeys ignoreVariablesSet ignorePrefixes key
  = is_unused definedKeys ignoreVariablesSet ignorePrefixes key.
Proof. reflexivity. Qed.

(** C5. The detector that makes the three exclusion checks in any other
    order (any arrangement of the three) behaves as [warnUnused]: it returns
    the same list, and makes the same call of the warning function. *)
Theorem check_order_irrelevant {V : Type} (order : list Check)
    (process_env : Obj string) (cleanedEnv : Obj V)
    (options : option WarnUnusedOptions) :
  order ≡ₚ source_order →
  warnUnused_in_order order process_env cleanedEnv options
  = warnUnused process_env cleanedEnv options.
Proof.
  intros Hp. unfold warnUnused_in_order, warnUnused.
  cbn [destructure mbind M_bind mret M_ret].
  erewrite List.filter_ext; [reflexivity|].
  intros key. cbn beta.
  rewrite (is_unused_in_order_perm _ _ _ _ _ _ Hp). apply is_unused_source_order.
Qed.

Lemma check_order_irrelevant_reversed :
  [check_ignorePrefixes; check_ignoreVariables; check_definedKeys] ≡ₚ source_order
  ∧ warnUnused_in_order
      [check_ignorePrefixes; check_ignoreVariables; check_definedKeys]
      [("FOO", "bar"); ("npm_x", "1"); ("HOME", "/root"); ("UNUSED", "u")]
      [("FOO", 1)] None
    = warnUnused
        [("FOO", "bar"); ("npm_x", "1"); ("HOME", "/root"); ("UNUSED", "u")]
        [("FOO", 1)] None.
Proof.
  assert (Hp : [check_ignorePrefixes; check_ignoreVariables; check_definedKeys]
               ≡ₚ source_order).
  { exact (reverse_Permutation source_order). }
  split; [exact Hp | apply (check_order_irrelevant _ _ _ _ Hp)].
Defined.

(** ** How the result moves with the inputs *)

Lemma is_unused_andb (definedKeys ignoreVariablesSet : gset string)
    (ignorePrefixes : list string) (key : string) :
  is_unused definedKeys ignoreVariablesSet ignorePrefixes key
  = negb (bool_decide (key ∈ definedKeys))
    && negb (bool_decide (key ∈ ignoreVariablesSet))
    && negb (some (fun prefix => startsWith key prefix) ignorePrefixes).
Proof.
  unfold is_unused.
  by destruct (bool_decide (key ∈ definedKeys)),
              (bool_decide (key ∈ ignoreVariablesSet)), (some _ _).
Qed.

Lemma filter_andb {A : Type} (f g : A → bool) (l : list A) :
  List.filter (fun x => g x && f x) l = List.filter g (List.filter f l).
Proof.
  induction l as [|x l IH]; simpl; [done|].
  destruct (f x); simpl; destruct (g x); simpl; by rewrite ?IH.
Qed.

Lemma filter_all {A : Type} (f : A → bool) (l : list A) :
  (∀ x, x ∈ l → f x = true) → List.filter f l = l.
Proof.
  induction l as [|x l IH]; simpl; intros H; [done|].
  rewrite (H x) by by left. f_equal. apply IH. intros y Hy. apply H. by right.
Qed.

Lemma negb_eqb_true (key name : string) :
  negb (String.eqb key name) = true ↔ key ≠ name.
Proof. rewrite negb_true_iff. apply String.eqb_neq. Qed.

(** Removing the one occurrence of [name] from a list without repetition. *)
Lemma filter_remove_once (name : string) (l : list string) :
  NoDup l → name ∈ l →
  ∃ before after,
    l = before ++ name :: after
    ∧ List.filter (fun key => negb (String.eqb key name)) l = before ++ after
    ∧ (name ∉ before) ∧ (name ∉ after).
Proof.
  intros Hnd Hin. apply list_elem_of_split in Hin as (before & after & ->).
  apply NoDup_app in Hnd as (Hb & Hdisj & Ha).
  apply NoDup_cons in Ha as [Hna _].
  assert (Hnb : name ∉ before) by (intros Hb'; apply (Hdisj _ Hb'); by left).
  exists before, after. repeat split; try done.
  rewrite List.filter_app. simpl. rewrite String.eqb_refl. simpl.
  rewrite !filter_all; [done| |]; intros x Hx; apply negb_eqb_true; congruence.
Qed.

Lemma bool_decide_list_to_set_ext (l l' : list string) (key : string) :
  (key ∈ l ↔ key ∈ l') →
  bool_decide (key ∈ (list_to_set l : gset string))
  = bool_decide (key ∈ (list_to_set l' : gset string)).
Proof. intros H. apply bool_decide_ext. by rewrite !elem_of_list_to_set. Qed.

Lemma some_insert {A : Type} (f : A → bool) (arr : list A) (i : nat) (x : A) :
  some f (take i arr ++ x :: drop i arr) = f x || some f arr.
Proof.
  unfold some. rewrite <- (take_drop i arr) at 3.
  rewrite !existsb_app. simpl. by destruct (existsb f (take i arr)), (f x).
Qed.

Lemma unused_keys_ext {V V' : Type} (process_env : Obj string)
    (cleanedEnv : Obj V) (cleanedEnv' : Obj V') (s s' : Settings) (g : string → bool) :
  (∀ key,
      is_unused (list_to_set (Object_keys cleanedEnv')) (list_to_set (variables s'))
                (prefixes s') key
      = g key && is_unused (list_to_set (Object_keys cleanedEnv))
                           (list_to_set (variables s)) (prefixes s) key) →
  unused_keys process_env cleanedEnv' s'
  = List.filter g (unused_keys process_env cleanedEnv s).
Proof.
  intros H. unfold unused_keys. rewrite <- filter_andb.
  apply List.filter_ext. intros key. apply H.
Qed.

(** C6. With a warning function that returns: when [name] is in the result
    and the defined-key object is extended by the key [name] (its keys are
    then [name] and the former ones), all else equal, the new result is the
    former one without [name]: the other
    elements stay, in their order, and, the environment's keys being
    distinct, exactly one element has gone. *)
Theorem defining_an_unused_key_removes_it {V V' : Type}
    (process_env : Obj string) (cleanedEnv : Obj V) (cleanedEnv' : Obj V')
    (options : option WarnUnusedOptions) (name : string) (result : list string) :
  warn_returns options →
  completion (warnUnused process_env cleanedEnv options) = Normal result →
  name ∈ result →
  (∀ key, key ∈ Object_keys cleanedEnv' ↔
          key = name ∨ key ∈ Object_keys cleanedEnv) →
  ∃ result',
    completion (warnUnused process_env cleanedEnv' options) = Normal result'
    ∧ result' = List.filter (fun key => negb (String.eqb key name)) result
    ∧ (name ∉ result')
    ∧ (NoDup (Object_keys process_env) →
         ∃ before after,
           result = before ++ name :: after ∧ result' = before ++ after
           ∧ (name ∉ before) ∧ (name ∉ after)).
Proof.
  intros Hret Hrun Hin Hkeys.
  apply completion_warnUnused_Normal in Hrun. subst result.
  eexists. split; [by apply completion_warnUnused|].
  assert (Heq : unused_keys process_env cleanedEnv' (settings_of options)
                = List.filter (fun key => negb (String.eqb key name))
                    (unused_keys process_env cleanedEnv (settings_of options))).
  { apply unused_keys_ext. intros key. rewrite !is_unused_andb.
    assert (Hd : bool_decide (key ∈ (list_to_set (Object_keys cleanedEnv') : gset string))
                 = String.eqb key name
                   || bool_decide (key ∈ (list_to_set (Object_keys cleanedEnv) : gset string))).
    { apply eq_true_iff_eq. rewrite orb_true_iff, !bool_decide_eq_true,
        !elem_of_list_to_set, String.eqb_eq. apply Hkeys. }
    rewrite Hd. by destruct (String.eqb key name), (bool_decide _), (bool_decide _). }
  rewrite Heq. split; [done|]. split.
  - rewrite filter_elem_of, negb_eqb_true. tauto.
  - intros Hnd.
    assert (Hnd' : NoDup (unused_keys process_env cleanedEnv (settings_of options)))
      by (eapply sublist_NoDup; [exact Hnd | apply filter_sublist]).
    destruct (filter_remove_once name _ Hnd' Hin)
      as (before & after & H1 & H2 & H3 & H4).
    by exists before, after.
Qed.

Lemma defining_an_unused_key_removes_it_example :
  warn_returns (Some empty_lists_options)
  ∧ completion (warnUnused [("A", "1"); ("B", "2"); ("C", "3")] [("A", 1)]
                (Some empty_lists_options))
  = Normal ["B"; "C"]
  ∧ completion (warnUnused [("A", "1"); ("B", "2"); ("C", "3")] [("A", 1); ("B", 2)]
                  (Some empty_lists_options))
    = Normal ["C"].
Proof.
  destruct (defining_an_unused_key_removes_it
              [("A", "1"); ("B", "2"); ("C", "3")] [("A", 1)] [("A", 1); ("B", 2)]
              (Some empty_lists_options) "B" ["B"; "C"])
    as (result' & Hrun & Hres & _).
  - intros message. reflexivity.
  - by vm_compute.
  - left.
  - intros key. cbn. rewrite !elem_of_cons. tauto.
  - split; [intros message; reflexivity|].
    split; [by vm_compute|]. rewrite Hrun, Hres. by vm_compute.
Defined.

(** C7. With a warning function that returns: adding a name to
    [ignoreVariables], at any place in the list, removes from the result the names equal to it, and adding a prefix to
    [ignorePrefixes], at any place in the list, removes from the result the
    names that start with it; in both cases the other names stay, in their
    order. *)
Theorem ignoring_more_removes_the_matching {V : Type}
    (process_env : Obj string) (cleanedEnv : Obj V) (fn : option WarnFn)
    (ignorePrefixes ignoreVariables : list string) (i : nat) :
  returns_normally (or_default fn console_warn) →
  ∃ result,
    completion (warnUnused process_env cleanedEnv
                  (Some (mkOptions fn (Some ignorePrefixes) (Some ignoreVariables))))
    = Normal result
    ∧ (∀ name,
        completion
          (warnUnused process_env cleanedEnv
             (Some (mkOptions fn (Some ignorePrefixes)
                      (Some (take i ignoreVariables ++ name :: drop i ignoreVariables)))))
        = Normal (List.filter (fun key => negb (String.eqb key name)) result))
    ∧ (∀ prefix,
        completion
          (warnUnused process_env cleanedEnv
             (Some (mkOptions fn
                      (Some (take i ignorePrefixes ++ prefix :: drop i ignorePrefixes))
                      (Some ignoreVariables))))
        = Normal (List.filter (fun key => negb (startsWith key prefix)) result)).
Proof.
  intros Hret. eexists. split; [by apply completion_warnUnused|]. split.
  - intros name. rewrite completion_warnUnused by exact Hret. f_equal.
    apply unused_keys_ext. intros key. cbn. rewrite !is_unused_andb.
    assert (Hv : bool_decide (key ∈ (list_to_set
                   (take i ignoreVariables ++ name :: drop i ignoreVariables) : gset string))
                 = String.eqb key name
                   || bool_decide (key ∈ (list_to_set ignoreVariables : gset string))).
    { apply eq_true_iff_eq. rewrite orb_true_iff, !bool_decide_eq_true,
        !elem_of_list_to_set, String.eqb_eq, elem_of_app, elem_of_cons.
      rewrite <- (take_drop i ignoreVariables) at 3. rewrite elem_of_app. tauto. }
    rewrite Hv. clear Hv.
    by destruct (String.eqb key name), (bool_decide _), (bool_decide _).
  - intros prefix. rewrite completion_warnUnused by exact Hret. f_equal.
    apply unused_keys_ext. intros key. cbn. rewrite !is_unused_andb.
    rewrite (some_insert (fun prefix => startsWith key prefix)).
    by destruct (startsWith key prefix), (bool_decide _), (bool_decide _), (some _ _).
Qed.

Lemma ignoring_more_removes_the_matching_example :
  returns_normally (callback 0)
  ∧ completion
      (warnUnused [("FOO", "bar"); ("MY_A", "a"); ("DEBUG", "1"); ("MY_B", "b")]
         [("FOO", 1)] (Some (mkOptions (Some (callback 0)) (Some []) (Some []))))
    = Normal ["MY_A"; "DEBUG"; "MY_B"]
  ∧ completion
      (warnUnused [("FOO", "bar"); ("MY_A", "a"); ("DEBUG", "1"); ("MY_B", "b")]
         [("FOO", 1)] (Some (mkOptions (Some (callback 0)) (Some []) (Some ["DEBUG"]))))
    = Normal ["MY_A"; "MY_B"]
  ∧ completion
      (warnUnused [("FOO", "bar"); ("MY_A", "a"); ("DEBUG", "1"); ("MY_B", "b")]
         [("FOO", 1)] (Some (mkOptions (Some (callback 0)) (Some ["MY_"]) (Some []))))
    = Normal ["DEBUG"].
Proof.
  assert (Hret : returns_normally (callback 0)) by (intros message; reflexivity).
  destruct (ignoring_more_removes_the_matching
              [("FOO", "bar"); ("MY_A", "a"); ("DEBUG", "1"); ("MY_B", "b")]
              [("FOO", 1)] (Some (callback 0)) [] [] 0 Hret)
    as (result & Hrun & Hname & Hprefix).
  assert (Hres : result = ["MY_A"; "DEBUG"; "MY_B"]).
  { apply completion_warnUnused_Normal in Hrun. rewrite Hrun. by vm_compute. }
  subst result. split; [exact Hret|]. split; [exact Hrun|]. split.
  - apply (Hname "DEBUG").
  - apply (Hprefix "MY_").
Defined.

(** C9. Two [cleanedEnv] objects with the same keys, whatever their values
    and the order of their keys, give the same result and the same call of
    the warning function. *)
Theorem only_the_keys_of_cleanedEnv_matter {V V' : Type}
    (process_env : Obj string) (cleanedEnv : Obj V) (cleanedEnv' : Obj V')
    (options : option WarnUnusedOptions) :
  (∀ key, key ∈ Object_keys cleanedEnv ↔ key ∈ Object_keys cleanedEnv') →
  warnUnused process_env cleanedEnv options
  = warnUnused process_env cleanedEnv' options.
Proof.
  intros Hkeys. rewrite !warnUnused_eq.
  assert (Heq : unused_keys process_env cleanedEnv (settings_of options)
                = unused_keys process_env cleanedEnv' (settings_of options)).
  { apply List.filter_ext. intros key. rewrite !is_unused_andb.
    by rewrite (bool_decide_list_to_set_ext _ _ key (Hkeys key)). }
  by rewrite Heq.
Qed.

Lemma only_the_keys_of_cleanedEnv_matter_example :
  warnUnused [("PORT", "80"); ("API_URL", "u"); ("EXTRA", "e")]
             [("API_URL", "u"); ("PORT", "80")] None
  = warnUnused [("PORT", "80"); ("API_URL", "u"); ("EXTRA", "e")]
               [("PORT", 81); ("API_URL", 0)] None.
Proof.
  apply (only_the_keys_of_cleanedEnv_matter
           [("PORT", "80"); ("API_URL", "u"); ("EXTRA", "e")]
           [("API_URL", "u"); ("PORT", "80")] [("PORT", 81); ("API_URL", 0)] None).
  intros key. cbn. rewrite !elem_of_cons. tauto.
Defined.

(** C10. When [ignorePrefixes] holds the empty string, every key starts
    with one of the prefixes: the result is empty and the warning function
    is not called. *)
Theorem empty_prefix_ignores_every_key {V : Type}
    (process_env : Obj string) (cleanedEnv : Obj V) (fn : option WarnFn)
    (ignorePrefixes : list string) (ignoreVariables : option (list string)) :
  "" ∈ ignorePrefixes →
  warnUnused process_env cleanedEnv
    (Some (mkOptions fn (Some ignorePrefixes) ignoreVariables))
  = ([], Normal []).
Proof.
  intros Hin. rewrite warnUnused_eq.
  assert (Hnone : unused_keys process_env cleanedEnv
                    (settings_of (Some (mkOptions fn (Some ignorePrefixes) ignoreVariables)))
                  = []).
  { unfold unused_keys. rewrite prefixes_settings_of.
    induction (Object_keys process_env) as [|key keys IH]; [done|]. simpl.
    rewrite is_unused_andb.
    assert (Hs : some (fun prefix => startsWith key prefix) ignorePrefixes = true).
    { apply some_true_iff. exists "". split; [done | apply startsWith_empty]. }
    rewrite Hs, !andb_false_r. apply IH. }
  by rewrite Hnone.
Qed.

Lemma empty_prefix_ignores_every_key_example :
  "" ∈ ["npm_"; ""]
  ∧ warnUnused [("FOO", "bar"); ("UNUSED", "u")] ([] : Obj string)
      (Some (mkOptions (Some (callback 0)) (Some ["npm_"; ""]) (Some [])))
    = ([], Normal []).
Proof.
  assert (Hin : "" ∈ ["npm_"; ""]) by (right; left).
  split; [exact Hin|].
  apply (empty_prefix_ignores_every_key _ _ _ _ _ Hin).
Defined.

(** ** The default lists *)

(** C8. Every entry of [DEFAULT_IGNORE_PREFIXES] ends with an underscore,
    and no entry of [DEFAULT_IGNORE_VARIABLES] ends with an underscore except
    the entry ["_"] itself, which is in the list. *)
Theorem default_lists_underscore_convention :
  Forall (fun prefix => endsWith prefix "_" = true) DEFAULT_IGNORE_PREFIXES
  ∧ Forall (fun name => endsWith name "_" = true → name = "_")
      DEFAULT_IGNORE_VARIABLES
  ∧ "_" ∈ DEFAULT_IGNORE_VARIABLES.
Proof.
  split; [|split].
  - unfold DEFAULT_IGNORE_PREFIXES. repeat constructor.
  - unfold DEFAULT_IGNORE_VARIABLES.
    repeat (apply Forall_cons; split; [vm_compute; congruence|]). constructor.
  - unfold DEFAULT_IGNORE_VARIABLES. apply list_elem_of_lookup. by exists 18.
Qed.

(** ** Further properties of [warnUnused] *)

(** Two runs that warn through the same function and find the same unused
    keys are the same run. *)
Lemma warnUnused_congr {V V' : Type} (process_env process_env' : Obj string)
    (cleanedEnv : Obj V) (cleanedEnv' : Obj V')
    (options options' : option WarnUnusedOptions) :
  warn_fn (settings_of options) = warn_fn (settings_of options') →
  unused_keys process_env cleanedEnv (settings_of options)
  = unused_keys process_env' cleanedEnv' (settings_of options') →
  warnUnused process_env cleanedEnv options
  = warnUnused process_env' cleanedEnv' options'.
Proof. intros Hfn Hkeys. by rewrite !warnUnused_eq, Hfn, Hkeys. Qed.

Lemma filter_ext_elem_of {A : Type} (f g : A → bool) (l : list A) :
  (∀ x, x ∈ l → f x = g x) → List.filter f l = List.filter g l.
Proof.
  intros H. apply List.filter_ext_in. intros x Hx. apply H.
  by apply list_elem_of_In.
Qed.

Lemma filter_none {A : Type} (f : A → bool) (l : list A) :
  (∀ x, x ∈ l → f x = false) → List.filter f l = [].
Proof.
  induction l as [|x l IH]; simpl; intros H; [done|].
  rewrite (H x) by by left. apply IH. intros y Hy. apply H. by right.
Qed.

Lemma filter_Permutation {A : Type} (f : A → bool) (l l' : list A) :
  l ≡ₚ l' → List.filter f l ≡ₚ List.filter f l'.
Proof.
  induction 1 as [|x l l' _ IH|x y l|l l' l'' _ IH _ IH']; simpl.
  - done.
  - destruct (f x); by rewrite IH.
  - destruct (f x), (f y); try done. apply Permutation_swap.
  - by rewrite IH.
Qed.

Lemma Object_keys_filter {V : Type} (keep : string → bool) (o : Obj V) :
  Object_keys (List.filter (fun property => keep (fst property)) o)
  = List.filter keep (Object_keys o).
Proof.
  induction o as [|[k v] o IH]; simpl; [done|].
  destruct (keep k); simpl; by rewrite IH.
Qed.

Lemma startsWith_refl (key : string) : startsWith key key = true.
Proof. apply startsWith_spec. exists "". induction key as [|c s IH]; [done|].
  by rewrite append_String, <- IH. Qed.

Lemma startsWith_trans (key q p : string) :
  startsWith key q = true → startsWith q p = true → startsWith key p = true.
Proof.
  rewrite !startsWith_spec. intros [r ->] [r' ->].
  exists (r' +:+ r). apply append_assoc.
Qed.

Lemma bool_decide_list_to_set (l : list string) (key : string) :
  bool_decide (key ∈ (list_to_set l : gset string)) = bool_decide (key ∈ l).
Proof. apply bool_decide_ext, elem_of_list_to_set. Qed.

(** X1. A key is excluded by name when it is a key of [cleanedEnv] or an
    element of [ignoreVariables], no matter which: two runs whose defined
    keys and ignored names, taken together, hold the same keys of the
    environment give the same result and the same call. Keys of
    [cleanedEnv] and names of [ignoreVariables] that are no key of the
    environment, and the order and repetitions of [ignoreVariables], have no
    effect. *)
Theorem defined_and_ignored_names_pool {V V' : Type}
    (process_env : Obj string) (cleanedEnv : Obj V) (cleanedEnv' : Obj V')
    (fn : option WarnFn) (ignorePrefixes : option (list string))
    (ignoreVariables ignoreVariables' : list string) :
  (∀ key, key ∈ Object_keys process_env →
     (key ∈ Object_keys cleanedEnv ∨ key ∈ ignoreVariables)
     ↔ (key ∈ Object_keys cleanedEnv' ∨ key ∈ ignoreVariables')) →
  warnUnused process_env cleanedEnv
    (Some (mkOptions fn ignorePrefixes (Some ignoreVariables)))
  = warnUnused process_env cleanedEnv'
      (Some (mkOptions fn ignorePrefixes (Some ignoreVariables'))).
Proof.
  intros Hpool. apply warnUnused_congr; [done|].
  apply filter_ext_elem_of. intros key Hkey. rewrite !is_unused_andb.
  rewrite !variables_settings_of, !bool_decide_list_to_set.
  specialize (Hpool key Hkey). f_equal.
  rewrite <- !negb_orb. f_equal. apply eq_true_iff_eq.
  by rewrite !orb_true_iff, !bool_decide_eq_true.
Qed.

Lemma defined_and_ignored_names_pool_example :
  warnUnused [("PORT", "80"); ("DEBUG", "1"); ("EXTRA", "e")]
             [("PORT", 80); ("isDev", 0)]
             (Some (mkOptions None None (Some ["DEBUG"; "DEBUG"; "ABSENT"])))
  = warnUnused [("PORT", "80"); ("DEBUG", "1"); ("EXTRA", "e")]
               [("DEBUG", "1")]
               (Some (mkOptions None None (Some ["PORT"]))).
Proof.
  apply (defined_and_ignored_names_pool
           [("PORT", "80"); ("DEBUG", "1"); ("EXTRA", "e")]
           [("PORT", 80); ("isDev", 0)] [("DEBUG", "1")] None None
           ["DEBUG"; "DEBUG"; "ABSENT"] ["PORT"]).
  intros key. cbn. rewrite !elem_of_cons, !elem_of_nil.
  intros [->|[->|[->|[]]]]; split; intros H;
    first [ solve [eauto 10] | exfalso; intuition discriminate ].
Defined.

(** X2. Two prefix lists that cover each other, every prefix of one
    starting with some prefix of the other, give the same result and the same
    call: the order and the repetitions of [ignorePrefixes] have no effect, and
    neither has a prefix that extends another prefix of the list. *)
Theorem covering_prefix_lists_agree {V : Type}
    (process_env : Obj string) (cleanedEnv : Obj V)
    (fn : option WarnFn) (ignorePrefixes ignorePrefixes' : list string)
    (ignoreVariables : option (list string)) :
  (∀ q, q ∈ ignorePrefixes' → ∃ p, p ∈ ignorePrefixes ∧ startsWith q p = true) →
  (∀ p, p ∈ ignorePrefixes → ∃ q, q ∈ ignorePrefixes' ∧ startsWith p q = true) →
  warnUnused process_env cleanedEnv
    (Some (mkOptions fn (Some ignorePrefixes) ignoreVariables))
  = warnUnused process_env cleanedEnv
      (Some (mkOptions fn (Some ignorePrefixes') ignoreVariables)).
Proof.
  intros Hcover' Hcover. apply warnUnused_congr; [done|].
  apply List.filter_ext. intros key. rewrite !is_unused_andb.
  rewrite !prefixes_settings_of. f_equal. f_equal.
  apply eq_true_iff_eq. rewrite !some_true_iff. split.
  - intros (p & Hp & Hs). destruct (Hcover p Hp) as (q & Hq & Hpq).
    exists q. split; [done|]. by apply (startsWith_trans key p q).
  - intros (q & Hq & Hs). destruct (Hcover' q Hq) as (p & Hp & Hqp).
    exists p. split; [done|]. by apply (startsWith_trans key q p).
Qed.

Lemma covering_prefix_lists_agree_example :
  warnUnused [("npm_config_x", "1"); ("NODE_ENV", "test"); ("EXTRA", "e")]
             ([] : Obj string)
             (Some (mkOptions None (Some ["npm_"; "NODE_"]) (Some [])))
  = warnUnused [("npm_config_x", "1"); ("NODE_ENV", "test"); ("EXTRA", "e")]
               ([] : Obj string)
               (Some (mkOptions None (Some ["NODE_"; "npm_config_"; "npm_"; "npm_"])
                        (Some []))).
Proof.
  apply (covering_prefix_lists_agree
           [("npm_config_x", "1"); ("NODE_ENV", "test"); ("EXTRA", "e")] []
           None ["npm_"; "NODE_"] ["NODE_"; "npm_config_"; "npm_"; "npm_"] (Some [])).
  - intros q. rewrite !elem_of_cons, elem_of_nil.
    intros [->|[->|[->|[->|[]]]]].
    + exists "NODE_". split; [right; left|]; done.
    + exists "npm_". split; [left|]; done.
    + exists "npm_". split; [left|]; done.
    + exists "npm_". split; [left|]; done.
  - intros p. rewrite !elem_of_cons, elem_of_nil. intros [->|[->|[]]].
    + exists "npm_". split; [right; right; left|]; done.
    + exists "NODE_". split; [left|]; done.
Defined.

(** X3. With a warning function that returns, ignoring a string as a
    prefix removes at least what ignoring it as a name removes: the result with [name] added to [ignorePrefixes] is a
    subsequence of the result with [name] added to [ignoreVariables]; the two
    results are equal when [name] is the only key of the environment that
    starts with [name]. *)
Theorem prefix_ignores_at_least_the_name {V : Type}
    (process_env : Obj string) (cleanedEnv : Obj V) (fn : option WarnFn)
    (ignorePrefixes ignoreVariables : list string) (name : string) :
  returns_normally (or_default fn console_warn) →
  ∃ by_name by_prefix,
    completion (warnUnused process_env cleanedEnv
                  (Some (mkOptions fn (Some ignorePrefixes)
                           (Some (name :: ignoreVariables)))))
    = Normal by_name
    ∧ completion (warnUnused process_env cleanedEnv
                    (Some (mkOptions fn (Some (name :: ignorePrefixes))
                             (Some ignoreVariables))))
      = Normal by_prefix
    ∧ by_prefix `sublist_of` by_name
    ∧ ((∀ key, key ∈ Object_keys process_env →
                startsWith key name = true → key = name) →
       by_prefix = by_name).
Proof.
  intros Hret. eexists _, _. split; [by apply completion_warnUnused|].
  split; [by apply completion_warnUnused|].
  unfold unused_keys.
  rewrite !prefixes_settings_of, !variables_settings_of.
  set (by_name := is_unused _ (list_to_set (name :: ignoreVariables)) ignorePrefixes).
  set (by_prefix := is_unused _ (list_to_set ignoreVariables) (name :: ignorePrefixes)).
  assert (Himp : ∀ key, by_prefix key = true → by_name key = true).
  { intros key. unfold by_prefix, by_name. rewrite !is_unused_true.
    intros (Hd & Hv & Hp). split; [done|]. split.
    - rewrite elem_of_list_to_set, elem_of_cons.
      rewrite elem_of_list_to_set in Hv. intros [->|Hin]; [|done].
      apply Hp. exists name. split; [by left | apply startsWith_refl].
    - intros (p & Hin & Hs). apply Hp. exists p. split; [by right | done]. }
  split.
  - rewrite (filter_ext_elem_of by_prefix (fun key => by_prefix key && by_name key)).
    + rewrite filter_andb. apply filter_sublist.
    + intros key _. specialize (Himp key).
      destruct (by_prefix key), (by_name key); try done. by discriminate Himp.
  - intros Honly. apply filter_ext_elem_of. intros key Hkey.
    apply eq_true_iff_eq. split; [apply Himp|].
    unfold by_prefix, by_name. rewrite !is_unused_true.
    intros (Hd & Hv & Hp). rewrite elem_of_list_to_set, elem_of_cons in Hv.
    split; [done|]. split; [rewrite elem_of_list_to_set; tauto|].
    intros (p & Hin & Hs). apply elem_of_cons in Hin as [->|Hin].
    + apply Hv. left. by apply Honly.
    + apply Hp. by exists p.
Qed.

Lemma prefix_ignores_at_least_the_name_example :
  returns_normally (callback 0)
  ∧ completion
      (warnUnused [("HOME", "/root"); ("HOMEBREW", "1"); ("EXTRA", "e")]
         ([] : Obj string)
         (Some (mkOptions (Some (callback 0)) (Some []) (Some ["HOME"]))))
    = Normal ["HOMEBREW"; "EXTRA"]
  ∧ completion
      (warnUnused [("HOME", "/root"); ("HOMEBREW", "1"); ("EXTRA", "e")]
         ([] : Obj string)
         (Some (mkOptions (Some (callback 0)) (Some ["HOME"]) (Some []))))
    = Normal ["EXTRA"]
  ∧ ["EXTRA"] `sublist_of` ["HOMEBREW"; "EXTRA"].
Proof.
  assert (Hret : returns_normally (callback 0)) by (intros message; reflexivity).
  destruct (prefix_ignores_at_least_the_name
              [("HOME", "/root"); ("HOMEBREW", "1"); ("EXTRA", "e")]
              ([] : Obj string) (Some (callback 0)) [] [] "HOME" Hret)
    as (by_name & by_prefix & Hname & Hprefix & Hsub & _).
  assert (Hn : by_name = ["HOMEBREW"; "EXTRA"]).
  { apply completion_warnUnused_Normal in Hname. rewrite Hname. by vm_compute. }
  assert (Hp : by_prefix = ["EXTRA"]).
  { apply completion_warnUnused_Normal in Hprefix. rewrite Hprefix. by vm_compute. }
  subst by_name by_prefix. by split.
Defined.

(** X4. With a warning function that returns, the result for an
    environment made of two parts is the result for
    the first part followed by the result for the second: variables added
    to the environment leave the names reported before in place. *)
Theorem unused_keys_of_environment_parts {V : Type}
    (process_env1 process_env2 : Obj string) (cleanedEnv : Obj V)
    (options : option WarnUnusedOptions) :
  warn_returns options →
  ∃ result1 result2,
    completion (warnUnused process_env1 cleanedEnv options) = Normal result1
    ∧ completion (warnUnused process_env2 cleanedEnv options) = Normal result2
    ∧ completion (warnUnused (process_env1 ++ process_env2) cleanedEnv options)
      = Normal (result1 ++ result2).
Proof.
  intros Hret. eexists _, _. rewrite !completion_warnUnused by exact Hret.
  repeat split.
  unfold unused_keys, Object_keys. by rewrite List.map_app, List.filter_app.
Qed.

Lemma unused_keys_of_environment_parts_example :
  warn_returns None
  ∧ completion
      (warnUnused ([("A", "1"); ("HOME", "/root")] ++ [("FOO", "bar"); ("B", "2")])
         [("FOO", 1)] None)
    = Normal (["A"] ++ ["B"]).
Proof.
  assert (Hret : warn_returns None) by (intros message; reflexivity).
  destruct (unused_keys_of_environment_parts
              [("A", "1"); ("HOME", "/root")] [("FOO", "bar"); ("B", "2")]
              [("FOO", 1)] None Hret)
    as (result1 & result2 & Hrun1 & Hrun2 & Hrun).
  assert (H1 : result1 = ["A"]).
  { apply completion_warnUnused_Normal in Hrun1. rewrite Hrun1. by vm_compute. }
  assert (H2 : result2 = ["B"]).
  { apply completion_warnUnused_Normal in Hrun2. rewrite Hrun2. by vm_compute. }
  subst result1 result2. by split.
Defined.

(** X5. Once every reported name is defined, nothing is left to report: if
    [cleanedEnv'] has the keys of [cleanedEnv] and the names a first run
    returned, a second run with [cleanedEnv'] returns the empty list and does
    not call the warning function. *)
Theorem defining_every_reported_key_silences {V V' : Type}
    (process_env : Obj string) (cleanedEnv : Obj V) (cleanedEnv' : Obj V')
    (options : option WarnUnusedOptions) (result : list string) :
  completion (warnUnused process_env cleanedEnv options) = Normal result →
  (∀ key, key ∈ Object_keys cleanedEnv → key ∈ Object_keys cleanedEnv') →
  (∀ key, key ∈ result → key ∈ Object_keys cleanedEnv') →
  warnUnused process_env cleanedEnv' options = ([], Normal []).
Proof.
  intros Hrun Hold Hnew.
  apply completion_warnUnused_Normal in Hrun. subst result.
  rewrite warnUnused_eq.
  assert (Hnone : unused_keys process_env cleanedEnv' (settings_of options) = []).
  { apply filter_none. intros key Hkey.
    apply not_true_is_false. rewrite is_unused_true.
    intros (Hd & Hv & Hp). apply Hd. apply elem_of_list_to_set.
    destruct (bool_decide (key ∈ Object_keys cleanedEnv)) eqn:Hdef.
    - apply Hold. by apply bool_decide_eq_true in Hdef.
    - apply bool_decide_eq_false in Hdef. apply Hnew.
      apply filter_elem_of. split; [done|]. apply is_unused_true.
      by rewrite elem_of_list_to_set. }
  by rewrite Hnone.
Qed.

Lemma defining_every_reported_key_silences_example :
  completion (warnUnused [("A", "1"); ("HOME", "/root"); ("B", "2"); ("C", "3")]
                [("A", 1)] None)
  = Normal ["B"; "C"]
  ∧ warnUnused [("A", "1"); ("HOME", "/root"); ("B", "2"); ("C", "3")]
               [("C", 3); ("A", 1); ("B", 2)] None
    = ([], Normal []).
Proof.
  assert (Hrun : completion
                   (warnUnused [("A", "1"); ("HOME", "/root"); ("B", "2"); ("C", "3")]
                      [("A", 1)] None)
                 = Normal ["B"; "C"]) by by vm_compute.
  split; [exact Hrun|].
  apply (defining_every_reported_key_silences _ [("A", 1)] _ None ["B"; "C"] Hrun).
  - intros key. cbn. rewrite !elem_of_cons. tauto.
  - intros key. cbn. rewrite !elem_of_cons. tauto.
Defined.

(** X6. Variables that are not reported can be taken out of the
    environment without changing the run: for any selection of the
    environment's variables that keeps every reported one, the result and the
    call are those of the whole environment. *)
Theorem unreported_variables_can_be_dropped {V : Type}
    (process_env : Obj string) (cleanedEnv : Obj V)
    (options : option WarnUnusedOptions) (result : list string)
    (keep : string → bool) :
  completion (warnUnused process_env cleanedEnv options) = Normal result →
  (∀ key, key ∈ result → keep key = true) →
  warnUnused (List.filter (fun property => keep (fst property)) process_env)
             cleanedEnv options
  = warnUnused process_env cleanedEnv options.
Proof.
  intros Hrun Hkeep.
  apply completion_warnUnused_Normal in Hrun. subst result.
  apply warnUnused_congr; [done|].
  unfold unused_keys. rewrite Object_keys_filter, <- filter_andb.
  apply filter_ext_elem_of. intros key Hkey.
  destruct (is_unused _ _ _ key) eqn:Hu; [|done].
  rewrite andb_true_l. apply Hkeep, filter_elem_of. by split.
Qed.

Lemma unreported_variables_can_be_dropped_example :
  warnUnused [("FOO", "bar"); ("UNUSED", "u")] [("FOO", 1)] None
  = warnUnused [("FOO", "bar"); ("HOME", "/root"); ("npm_x", "1"); ("UNUSED", "u")]
               [("FOO", 1)] None.
Proof.
  apply (unreported_variables_can_be_dropped
           [("FOO", "bar"); ("HOME", "/root"); ("npm_x", "1"); ("UNUSED", "u")]
           [("FOO", 1)] None ["UNUSED"]
           (fun key => String.eqb key "FOO" || String.eqb key "UNUSED")).
  - by vm_compute.
  - intros key. rewrite elem_of_cons, elem_of_nil. by intros [->|[]].
Defined.

(** X7. With a warning function that returns, the order in which the
    environment lists its keys only reorders the result: two environments with the same keys in another order give
    results that are rearrangements of each other, of the same length, and
    either both runs call the warning function or neither does. *)
Theorem enumeration_order_only_reorders {V : Type}
    (process_env process_env' : Obj string) (cleanedEnv : Obj V)
    (options : option WarnUnusedOptions) :
  warn_returns options →
  Object_keys process_env ≡ₚ Object_keys process_env' →
  ∃ result result',
    completion (warnUnused process_env cleanedEnv options) = Normal result
    ∧ completion (warnUnused process_env' cleanedEnv options) = Normal result'
    ∧ result ≡ₚ result'
    ∧ length result = length result'
    ∧ length (calls (warnUnused process_env cleanedEnv options))
      = length (calls (warnUnused process_env' cleanedEnv options)).
Proof.
  intros Hret Hperm. eexists _, _.
  rewrite !completion_warnUnused by exact Hret. rewrite !calls_warnUnused.
  split; [done|]. split; [done|].
  assert (Hres : unused_keys process_env cleanedEnv (settings_of options)
                 ≡ₚ unused_keys process_env' cleanedEnv (settings_of options))
    by by apply filter_Permutation.
  split; [done|]. pose proof (Permutation_length Hres) as Hlen.
  split; [done|].
  destruct (unused_keys process_env _ _), (unused_keys process_env' _ _);
    simpl in *; congruence.
Qed.

Lemma enumeration_order_only_reorders_example :
  warn_returns None
  ∧ completion (warnUnused [("B", "2"); ("FOO", "bar"); ("A", "1")] [("FOO", 1)] None)
  = Normal ["B"; "A"]
  ∧ completion (warnUnused [("A", "1"); ("B", "2"); ("FOO", "bar")] [("FOO", 1)] None)
    = Normal ["A"; "B"]
  ∧ ["B"; "A"] ≡ₚ ["A"; "B"].
Proof.
  destruct (enumeration_order_only_reorders
              [("B", "2"); ("FOO", "bar"); ("A", "1")]
              [("A", "1"); ("B", "2"); ("FOO", "bar")] [("FOO", 1)] None)
    as (result & result' & Hrun & Hrun' & Hperm & _).
  - intros message. reflexivity.
  - cbn. change ["B"; "FOO"; "A"] with (["B"; "FOO"] ++ ["A"]).
    rewrite Permutation_app_comm. cbn. done.
  - split; [intros message; reflexivity|].
    assert (H1 : result = ["B"; "A"]).
    { apply completion_warnUnused_Normal in Hrun. rewrite Hrun. by vm_compute. }
    assert (H2 : result' = ["A"; "B"]).
    { apply completion_warnUnused_Normal in Hrun'. rewrite Hrun'. by vm_compute. }
    subst result result'. by split.
Defined.

(** X8. With nothing defined and nothing ignored, and a warning function
    that returns, every key of the environment is returned, in the
    environment's order; with an empty
    environment nothing is reported and the warning function is not called,
    whatever is defined and ignored. *)
Theorem nothing_excluded_reports_every_key (process_env : Obj string) :
  (∀ fn, returns_normally (or_default fn console_warn) →
         completion (warnUnused process_env ([] : Obj string)
                       (Some (mkOptions fn (Some []) (Some []))))
         = Normal (Object_keys process_env))
  ∧ (∀ (V : Type) (cleanedEnv : Obj V) options,
        warnUnused [] cleanedEnv options = ([], Normal [])).
Proof.
  split.
  - intros fn Hret. rewrite completion_warnUnused by exact Hret. f_equal.
    apply filter_all. intros key _. apply is_unused_true.
    rewrite prefixes_settings_of, variables_settings_of. cbn.
    split; [set_solver|]. split; [set_solver|].
    intros (p & Hp & _). by apply elem_of_nil in Hp.
  - intros V cleanedEnv options. by rewrite warnUnused_eq.
Qed.

Lemma nothing_excluded_reports_every_key_example :
  returns_normally console_warn
  ∧ completion (warnUnused [("B", "2"); ("HOME", "/root"); ("A", "1")]
                  ([] : Obj string) (Some (mkOptions None (Some []) (Some []))))
    = Normal ["B"; "HOME"; "A"].
Proof.
  assert (Hret : returns_normally console_warn) by (intros message; reflexivity).
  split; [exact Hret|].
  apply (proj1 (nothing_excluded_reports_every_key
                  [("B", "2"); ("HOME", "/root"); ("A", "1")]) None Hret).
Defined.
